(** * mlpack: the logistic activation function

    A shallow embedding of
    [src/mlpack/methods/ann/activation_functions/logistic_function.hpp]
    (class [mlpack::ann::LogisticFunction]) and the properties of its three
    operations [fn], [deriv] and [inv], on scalars and on containers.

    Two embeddings of the same code are used.

    The first, [LogisticFunction], carries the general theorems.  A C++
    [double] is a value of [double] below: a real number or one of the
    IEEE 754 special values (+infinity, -infinity, NaN).  The branches the
    code takes on special values and on the truncation thresholds are
    modelled as written, and the two operations that overflow on doubles
    in this class do so here: [std::exp], and the product of [deriv].
    Otherwise the arithmetic of finite values is that of [R], without
    rounding to 53 bits: no sum or quotient of the class overflows on
    doubles, [std::exp] and [std::log] return the real exponential and
    logarithm (so the thresholds of the truncations are the real numbers
    ln(DBL_MAX) and ln(DBL_MIN), and a tiny exponential is not flushed to
    0), and the sign of zero is not modelled (a zero divisor behaves as
    +0, which is what [1 - y] yields at [y = 1]).  So that a theorem proved
    there is also a statement about the binary64 program, a theorem is
    stated with the tolerance of the specification (1e-9) where rounding
    changes a value, on the range of inputs where rounding errors stay
    within it; an equation between real values is meant in exact
    arithmetic, and the program reproduces it up to rounding.

    The second, [Binary64], is the code on the kernel's binary64 numbers,
    exact to the bit, with [std::exp] and [std::log] left as parameters.
    It decides what the program does at a given input, and carries the
    counterexamples that come from rounding. *)

From Stdlib Require Import Reals Lra Lia List ZArith Bool Floats.
Import ListNotations.

Local Open Scope R_scope.

(** ** IEEE 754 doubles, without rounding *)

Module IEEE754.

Inductive double : Type :=
| Fin (r : R)
| PInf
| NInf
| NaN.

Definition Rle_bool (a b : R) : bool := if Rle_dec a b then true else false.
Definition Rlt_bool (a b : R) : bool := if Rlt_dec a b then true else false.
Definition Req_bool (a b : R) : bool := if Req_dec_T a b then true else false.

Definition is_infinite (a : double) : bool :=
  match a with PInf | NInf => true | _ => false end.

(** [a <= b]; false as soon as one side is NaN. *)
Definition dle (a b : double) : bool :=
  match a, b with
  | NaN, _ | _, NaN => false
  | NInf, _ => true
  | _, PInf => true
  | Fin x, Fin y => Rle_bool x y
  | _, _ => false
  end.

Definition dge (a b : double) : bool := dle b a.

(** [a == b]; false as soon as one side is NaN. *)
Definition deq (a b : double) : bool :=
  match a, b with
  | Fin x, Fin y => Req_bool x y
  | PInf, PInf | NInf, NInf => true
  | _, _ => false
  end.

Definition dneg (a : double) : double :=
  match a with
  | Fin x => Fin (- x)
  | PInf => NInf
  | NInf => PInf
  | NaN => NaN
  end.

Definition dadd (a b : double) : double :=
  match a, b with
  | NaN, _ | _, NaN => NaN
  | Fin x, Fin y => Fin (x + y)
  | PInf, NInf | NInf, PInf => NaN
  | PInf, _ | _, PInf => PInf
  | NInf, _ | _, NInf => NInf
  end.

Definition dsub (a b : double) : double := dadd a (dneg b).

(** The infinity of the sign of [x], NaN for [x = 0]. *)
Definition inf_of_sign (x : R) : double :=
  if Req_bool x 0 then NaN else if Rlt_bool 0 x then PInf else NInf.

(** A result of magnitude 2^1024 - 2^970 or more, half a unit in the last
    place above the largest double, rounds to an infinity. *)
Definition overflow_threshold : R := IZR (2 ^ 1024 - 2 ^ 970).

Definition dmul (a b : double) : double :=
  match a, b with
  | NaN, _ | _, NaN => NaN
  | Fin x, Fin y => if Rle_bool overflow_threshold (Rabs (x * y))
                    then inf_of_sign (x * y) else Fin (x * y)
  | Fin x, PInf | PInf, Fin x => inf_of_sign x
  | Fin x, NInf | NInf, Fin x => inf_of_sign (- x)
  | PInf, PInf | NInf, NInf => PInf
  | PInf, NInf | NInf, PInf => NInf
  end.

Definition ddiv (a b : double) : double :=
  match a, b with
  | NaN, _ | _, NaN => NaN
  | Fin x, Fin y => if Req_bool y 0 then inf_of_sign x else Fin (x / y)
  | Fin _, PInf | Fin _, NInf => Fin 0
  | PInf, Fin y => if Rle_bool 0 y then PInf else NInf
  | NInf, Fin y => if Rle_bool 0 y then NInf else PInf
  | _, _ => NaN
  end.

(** [std::exp] and [std::log] of <cmath>. *)
Definition std_exp (a : double) : double :=
  match a with
  | Fin x => if Rle_bool overflow_threshold (exp x) then PInf else Fin (exp x)
  | PInf => PInf
  | NInf => Fin 0
  | NaN => NaN
  end.

Definition std_log (a : double) : double :=
  match a with
  | Fin x => if Rlt_bool 0 x then Fin (ln x)
             else if Req_bool x 0 then NInf else NaN
  | PInf => PInf
  | NInf | NaN => NaN
  end.

(** [std::numeric_limits<double>::max()], (2 - 2^-52) * 2^1023, and
    [std::numeric_limits<double>::min()], 2^-1022. *)
Definition DBL_MAX : R := IZR (2 ^ 1024 - 2 ^ 971).
Definition DBL_MIN : R := / IZR (2 ^ 1022).

Definition numeric_limits_max : double := Fin DBL_MAX.
Definition numeric_limits_min : double := Fin DBL_MIN.
Definition numeric_limits_infinity : double := PInf.

End IEEE754.

Export IEEE754.

Declare Scope double_scope.
Delimit Scope double_scope with D.
Bind Scope double_scope with double.
Notation "a + b" := (dadd a b) : double_scope.
Notation "a - b" := (dsub a b) : double_scope.
Notation "a * b" := (dmul a b) : double_scope.
Notation "a / b" := (ddiv a b) : double_scope.
Notation "- a" := (dneg a) : double_scope.
Notation "a >= b" := (dge a b) : double_scope.
Notation "a <= b" := (dle a b) : double_scope.
Notation "a == b" := (deq a b) (at level 70, no associativity) : double_scope.

(** ** The Armadillo primitives the class calls

    [arma::trunc_exp], [arma::trunc_log] and the element-wise operators on
    containers belong to the Armadillo library, which the header pulls in
    through <mlpack/core.hpp>; they are not under src/.  The specification
    describes them as a saturating exponential and a guarded logarithm that
    clamp extreme arguments before the standard function is called, and
    leaves the thresholds open.  The definitions below are Armadillo's own,
    quoted at each one. *)

Module arma.

(** The thresholds.  [Math<double>::log_max()] is
    [std::log(std::numeric_limits<double>::max())], about 709.78, and
    [Math<double>::log_min()] is
    [std::log(std::numeric_limits<double>::min())], about -708.40. *)
Definition log_max : double := std_log numeric_limits_max.
Definition log_min : double := std_log numeric_limits_min.

(** [arma::trunc_exp], the exponential truncated to avoid infinity.
    armadillo_bits/fn_trunc_exp.hpp, for an IEC 559 element type:
<<
  if(std::numeric_limits<eT>::is_iec559 && (x >= Math<eT>::log_max() ))
    return std::numeric_limits<eT>::max();
  else
    return std::exp(x);
>> *)
Definition trunc_exp (x : double) : double :=
  if (x >= log_max)%D then numeric_limits_max else std_exp x.

(** [arma::trunc_log], the natural logarithm truncated to avoid infinities.
    armadillo_bits/fn_trunc_log.hpp, for an IEC 559 element type:
<<
  if(x == std::numeric_limits<eT>::infinity())
    return Math<eT>::log_max();
  else
    return (x <= eT(0)) ? Math<eT>::log_min() : std::log(x);
>> *)
Definition trunc_log (x : double) : double :=
  if (x == numeric_limits_infinity)%D then log_max
  else if (x <= Fin 0)%D then log_min else std_log x.

(** A dense container ([arma::Mat<double>], of which [Col] and [Row] are the
    one-column and one-row cases): its dimensions and its elements in
    storage order. *)
Record Mat : Type := mkMat {
  n_rows : nat;
  n_cols : nat;
  mem : list double
}.

Definition n_elem (A : Mat) : nat := length (mem A).

(** An element-wise unary expression ([eOp]): same dimensions, the
    operation applied to every element. *)
Definition eop (f : double -> double) (A : Mat) : Mat :=
  {| n_rows := n_rows A; n_cols := n_cols A; mem := map f (mem A) |}.

(** An element-wise binary expression ([eGlue]).  Armadillo checks that both
    operands have the same dimensions and throws [std::logic_error]
    otherwise: [None] here. *)
Definition eglue (f : double -> double -> double) (A B : Mat) : option Mat :=
  if (n_rows A =? n_rows B)%nat && (n_cols A =? n_cols B)%nat
  then Some {| n_rows := n_rows A; n_cols := n_cols A;
               mem := map (fun p => f (fst p) (snd p)) (combine (mem A) (mem B)) |}
  else None.

(** [-X], [k + X], [k - X], [k / X], [trunc_exp(X)], [trunc_log(X)]. *)
Definition neg (X : Mat) : Mat := eop dneg X.
Definition scalar_plus (k : double) (X : Mat) : Mat := eop (fun e => k + e)%D X.
Definition scalar_minus_pre (k : double) (X : Mat) : Mat := eop (fun e => k - e)%D X.
Definition scalar_div_pre (k : double) (X : Mat) : Mat := eop (fun e => k / e)%D X.
Definition trunc_exp_mat (X : Mat) : Mat := eop trunc_exp X.
Definition trunc_log_mat (X : Mat) : Mat := eop trunc_log X.

(** [A % B] (element-wise product) and [A / B] (element-wise quotient). *)
Definition schur (A B : Mat) : option Mat := eglue dmul A B.
Definition div (A B : Mat) : option Mat := eglue ddiv A B.

End arma.

(** ** class LogisticFunction *)

Module LogisticFunction.

(** [static double fn(const double x)]:
    [return 1.0 / (1.0 + arma::trunc_exp(-x));] *)
Definition fn (x : double) : double :=
  (Fin 1 / (Fin 1 + arma.trunc_exp (- x)))%D.

(** [static void fn(const InputVecType& x, OutputVecType& y)]:
    [y = 1.0 / (1.0 + arma::trunc_exp(-x));]
    The result is the new value of the output argument [y]. *)
Definition fn_vec (x : arma.Mat) (y : arma.Mat) : arma.Mat :=
  arma.scalar_div_pre (Fin 1)
    (arma.scalar_plus (Fin 1) (arma.trunc_exp_mat (arma.neg x))).

(** [static double deriv(const double y)]: [return y * (1.0 - y);] *)
Definition deriv (y : double) : double :=
  (y * (Fin 1 - y))%D.

(** [static void deriv(const InputVecType& y, OutputVecType& x)]:
    [x = y % (1.0 - y);] *)
Definition deriv_vec (y : arma.Mat) (x : arma.Mat) : option arma.Mat :=
  arma.schur y (arma.scalar_minus_pre (Fin 1) y).

(** [static double inv(const double y)]:
    [return arma::trunc_log(y / (1 - y));] *)
Definition inv (y : double) : double :=
  arma.trunc_log (y / (Fin 1 - y))%D.

(** [static void inv(const InputVecType& y, OutputVecType& x)]:
    [x = arma::trunc_log(y / (1 - y));] *)
Definition inv_vec (y : arma.Mat) (x : arma.Mat) : option arma.Mat :=
  option_map arma.trunc_log_mat
    (arma.div y (arma.scalar_minus_pre (Fin 1) y)).

End LogisticFunction.

Import LogisticFunction.

(** ** The same code on binary64 numbers

    The class again, on the kernel's primitive floating-point numbers:
    every arithmetic operation and comparison is the IEEE 754 binary64 one,
    rounded to nearest.  [std::exp] and [std::log] belong to the C library
    and are parameters; [deriv] does not use them. *)

Module Binary64.

Local Open Scope float_scope.

(** [std::numeric_limits<double>::max()] and [::min()]. *)
Definition DBL_MAX : float := 0x1.fffffffffffffp+1023.
Definition DBL_MIN : float := 0x1p-1022.

Section Libm.

Variables std_exp std_log : float -> float.

(** [Math<double>::log_max()] and [Math<double>::log_min()]. *)
Definition log_max : float := std_log DBL_MAX.
Definition log_min : float := std_log DBL_MIN.

(** [arma::trunc_exp]: [x >= log_max ? max() : std::exp(x)]. *)
Definition trunc_exp (x : float) : float :=
  if log_max <=? x then DBL_MAX else std_exp x.

(** [arma::trunc_log]: [x == infinity ? log_max :
    (x <= 0 ? log_min : std::log(x))]. *)
Definition trunc_log (x : float) : float :=
  if x =? infinity then log_max
  else if x <=? 0 then log_min else std_log x.

(** [return 1.0 / (1.0 + arma::trunc_exp(-x));] *)
Definition fn (x : float) : float := 1 / (1 + trunc_exp (- x)).

(** [return y * (1.0 - y);] *)
Definition deriv (y : float) : float := y * (1 - y).

(** [return arma::trunc_log(y / (1 - y));] *)
Definition inv (y : float) : float := trunc_log (y / (1 - y)).

End Libm.

(** The doubles from [n] steps below [c] to [n] steps above it. *)
Fixpoint steps (n : nat) (f : float -> float) (t : float) : list float :=
  match n with
  | O => []
  | S k => f t :: steps k f (f t)
  end.

Definition within_ulps (n : nat) (c t : float) : Prop :=
  In t (c :: steps n next_up c ++ steps n next_down c).

(** The doubles nearest to ln(DBL_MAX) = 709.782712893384, to
    e^(-40) = 4.248354255291589e-18, to e^(-36.5) = 1.4068617124461467e-16
    and to ln(2^52 - 1) = 36.04365338911715.  A C library is taken to
    return, at these four arguments, a double within 8 units in the last
    place of them. *)
Definition ln_DBL_MAX_rounded : float := 0x1.62e42fefa39efp+9.
Definition exp_minus_40_rounded : float := 0x1.39792499b1a24p-58.
Definition exp_minus_36_5_rounded : float := 0x1.4466751c2bbe8p-53.
Definition ln_2p52m1_rounded : float := 0x1.205966f2b4f12p+5.

Definition libm_accurate (std_exp std_log : float -> float) : Prop :=
  within_ulps 8 ln_DBL_MAX_rounded (std_log DBL_MAX) /\
  within_ulps 8 exp_minus_40_rounded (std_exp (- 40)) /\
  within_ulps 8 exp_minus_36_5_rounded (std_exp (- 36.5)) /\
  within_ulps 8 ln_2p52m1_rounded (std_log 0x1.ffffffffffffep+51).

(** A C library that returns the nearest doubles themselves. *)
Definition exp_nearest (x : float) : float :=
  if x =? - 40 then exp_minus_40_rounded else exp_minus_36_5_rounded.
Definition log_nearest (x : float) : float :=
  if x =? DBL_MAX then ln_DBL_MAX_rounded else ln_2p52m1_rounded.

End Binary64.

(** ** The documented formulas

    The class comment and the specification give the three functions in
    closed form over the reals. *)

(** f(x) = 1 / (1 + e^(-x)) *)
Definition logistic (x : R) : R := 1 / (1 + exp (- x)).

(** f^-1(y) = ln(y / (1 - y)) *)
Definition logit (y : R) : R := ln (y / (1 - y)).

(** [out] has the shape of [inp] and holds, position by position, [f] of
    the element of [inp]. *)
Definition elementwise (f : double -> double) (inp out : arma.Mat) : Prop :=
  arma.n_rows out = arma.n_rows inp /\
  arma.n_cols out = arma.n_cols inp /\
  arma.n_elem out = arma.n_elem inp /\
  forall i, (i < arma.n_elem inp)%nat ->
    nth i (arma.mem out) NaN = f (nth i (arma.mem inp) NaN).

(** The alternating series of e^(-1): its general term 1/n!, and the
    numerator and denominator of its partial sums as integers. *)

Definition inv_fact (n : nat) : R := / INR (fact n).

Fixpoint factZ (n : nat) : Z :=
  match n with
  | O => 1
  | S k => Z.of_nat (S k) * factZ k
  end%Z.

Fixpoint alt_num (n : nat) : Z :=
  match n with
  | O => 1
  | S k => alt_num k * Z.of_nat (S k) + (-1) ^ Z.of_nat (S k)
  end%Z.

(** ** Auxiliary facts: comparisons and the thresholds *)

Lemma Rle_bool_true (a b : R) : a <= b -> Rle_bool a b = true.
Proof. intro H; unfold Rle_bool; destruct (Rle_dec a b); [reflexivity | contradiction]. Qed.

Lemma Rle_bool_false (a b : R) : b < a -> Rle_bool a b = false.
Proof. intro H; unfold Rle_bool; destruct (Rle_dec a b); [lra | reflexivity]. Qed.

Lemma Rlt_bool_true (a b : R) : a < b -> Rlt_bool a b = true.
Proof. intro H; unfold Rlt_bool; destruct (Rlt_dec a b); [reflexivity | contradiction]. Qed.

Lemma Rlt_bool_false (a b : R) : b <= a -> Rlt_bool a b = false.
Proof. intro H; unfold Rlt_bool; destruct (Rlt_dec a b); [lra | reflexivity]. Qed.

Lemma Req_bool_true (a b : R) : a = b -> Req_bool a b = true.
Proof. intro H; unfold Req_bool; destruct (Req_dec_T a b); [reflexivity | contradiction]. Qed.

Lemma Req_bool_false (a b : R) : a <> b -> Req_bool a b = false.
Proof. intro H; unfold Req_bool; destruct (Req_dec_T a b); [contradiction | reflexivity]. Qed.

Lemma DBL_MAX_lower : 10 ^ 300 <= DBL_MAX.
Proof.
  unfold DBL_MAX. rewrite pow_IZR.
  apply IZR_le. vm_compute. discriminate.
Qed.

Lemma DBL_MAX_upper : DBL_MAX < 2 ^ 1024.
Proof.
  unfold DBL_MAX. rewrite pow_IZR.
  apply IZR_lt. vm_compute. reflexivity.
Qed.

Lemma pow10_300_big : 10 ^ 9 <= 10 ^ 300.
Proof. apply Rle_pow; [lra | lia]. Qed.

Lemma DBL_MAX_big : 10 ^ 9 <= DBL_MAX.
Proof. apply Rle_trans with (1 := pow10_300_big), DBL_MAX_lower. Qed.

Lemma DBL_MAX_pos : 0 < DBL_MAX.
Proof. pose proof DBL_MAX_big. lra. Qed.

Lemma DBL_MIN_pos : 0 < DBL_MIN.
Proof.
  unfold DBL_MIN. apply Rinv_0_lt_compat. apply IZR_lt. vm_compute. reflexivity.
Qed.

Lemma log_max_eq : arma.log_max = Fin (ln DBL_MAX).
Proof.
  unfold arma.log_max, numeric_limits_max, std_log.
  now rewrite (Rlt_bool_true _ _ DBL_MAX_pos).
Qed.

Lemma log_min_eq : arma.log_min = Fin (ln DBL_MIN).
Proof.
  unfold arma.log_min, numeric_limits_min, std_log.
  now rewrite (Rlt_bool_true _ _ DBL_MIN_pos).
Qed.

Lemma ln_2_lt_1 : ln 2 < 1.
Proof.
  rewrite <- (ln_exp 1). apply ln_increasing; [lra |].
  pose proof (exp_ineq1 1). lra.
Qed.

Lemma ln_DBL_MAX_pos : 0 < ln DBL_MAX.
Proof.
  rewrite <- ln_1. apply ln_increasing; [lra |].
  pose proof DBL_MAX_big. lra.
Qed.

Lemma ln_DBL_MAX_lt : ln DBL_MAX < 1024.
Proof.
  apply Rlt_trans with (ln (2 ^ 1024)).
  - apply ln_increasing; [apply DBL_MAX_pos | apply DBL_MAX_upper].
  - rewrite ln_pow by lra.
    replace (INR 1024) with 1024 by (rewrite INR_IZR_INZ; reflexivity).
    pose proof ln_2_lt_1. lra.
Qed.

Lemma one_lt_ln_DBL_MAX : 1 < ln DBL_MAX.
Proof.
  rewrite <- (ln_exp 1) at 1. pose proof exp_le_3. pose proof DBL_MAX_big.
  apply ln_increasing; [apply exp_pos | lra].
Qed.

Lemma exp_ln_DBL_MAX : exp (ln DBL_MAX) = DBL_MAX.
Proof. apply exp_ln, DBL_MAX_pos. Qed.

(** Linear arithmetic with the bounds on the thresholds at hand. *)
Ltac thresholds :=
  pose proof DBL_MAX_big; pose proof DBL_MAX_lower;
  pose proof ln_DBL_MAX_lt; pose proof one_lt_ln_DBL_MAX.

Ltac lra_thresholds := thresholds; lra.

(** ** Auxiliary facts: the binary64 code at given inputs *)

(** The accuracy asked of the C library is met, for instance by one that
    returns the nearest doubles. *)
Lemma libm_accurate_met :
  Binary64.libm_accurate Binary64.exp_nearest Binary64.log_nearest.
Proof. repeat split; left; reflexivity. Qed.

(** At x = 36.5 the forward value is 1 - 2^-52, strictly inside (0, 1);
    its odds are 2^52 - 1 and the inverse returns about 36.04, not 36.5:
    close to 1 the forward value keeps too few digits of x. *)
Lemma inv_fn_drifts_binary64 (std_exp std_log : float -> float) :
  Binary64.libm_accurate std_exp std_log ->
  Binary64.fn std_exp std_log 36.5 = 0x1.ffffffffffffep-1%float /\
  (Binary64.inv std_log (Binary64.fn std_exp std_log 36.5)
     <? 36.25)%float = true.
Proof.
  intros [Hl [_ [He Hg]]].
  assert (Hfn : Binary64.fn std_exp std_log 36.5 = 0x1.ffffffffffffep-1%float).
  { unfold Binary64.fn, Binary64.trunc_exp, Binary64.log_max.
    assert (Hcut : (std_log Binary64.DBL_MAX <=? PrimFloat.opp 36.5)%float
                   = false).
    { cbv [Binary64.within_ulps Binary64.steps In app] in Hl.
      repeat (destruct Hl as [<- | Hl]; [reflexivity |]). destruct Hl. }
    rewrite Hcut. change (PrimFloat.opp 36.5) with (-36.5)%float.
    cbv [Binary64.within_ulps Binary64.steps In app] in He.
    repeat (destruct He as [<- | He]; [reflexivity |]). destruct He. }
  split; [exact Hfn |]. rewrite Hfn.
  unfold Binary64.inv, Binary64.trunc_log.
  change (0x1.ffffffffffffep-1 / (1 - 0x1.ffffffffffffep-1))%float
    with 0x1.ffffffffffffep+51%float.
  change (0x1.ffffffffffffep+51 =? infinity)%float with false.
  change (0x1.ffffffffffffep+51 <=? 0)%float with false.
  cbv iota.
  cbv [Binary64.within_ulps Binary64.steps In app] in Hg.
  repeat (destruct Hg as [<- | Hg]; [reflexivity |]). destruct Hg.
Qed.

(** ** Auxiliary facts: the scalar operations on finite arguments *)

(** On a finite argument the truncated exponential is the exponential
    capped at [DBL_MAX]. *)
Lemma DBL_MAX_lt_threshold : DBL_MAX < overflow_threshold.
Proof. apply IZR_lt. vm_compute. reflexivity. Qed.

Lemma one_lt_threshold : 1 < overflow_threshold.
Proof. apply IZR_lt. vm_compute. reflexivity. Qed.

(** Below [ln DBL_MAX] the exponential does not overflow. *)
Lemma std_exp_Fin (x : R) : x < ln DBL_MAX -> std_exp (Fin x) = Fin (exp x).
Proof.
  intro Hx. cbn. rewrite Rle_bool_false; [reflexivity |].
  apply Rlt_trans with (2 := DBL_MAX_lt_threshold).
  rewrite <- exp_ln_DBL_MAX. now apply exp_increasing.
Qed.

Lemma trunc_exp_Fin (x : R) :
  arma.trunc_exp (Fin x) = Fin (Rmin (exp x) DBL_MAX).
Proof.
  unfold arma.trunc_exp. rewrite log_max_eq. cbn [dge dle].
  destruct (Rle_dec (ln DBL_MAX) x) as [Hle | Hlt].
  - rewrite (Rle_bool_true _ _ Hle). unfold numeric_limits_max.
    f_equal. rewrite Rmin_right; [reflexivity |].
    rewrite <- exp_ln_DBL_MAX. destruct Hle as [Hlt | Heq].
    + left. now apply exp_increasing.
    + right. now rewrite Heq.
  - apply Rnot_le_lt in Hlt. rewrite (Rle_bool_false _ _ Hlt).
    rewrite std_exp_Fin by exact Hlt.
    f_equal. rewrite Rmin_left; [reflexivity |].
    rewrite <- exp_ln_DBL_MAX. left. now apply exp_increasing.
Qed.

Lemma capped_exp_pos (x : R) : 0 < Rmin (exp x) DBL_MAX.
Proof. apply Rmin_glb_lt; [apply exp_pos | apply DBL_MAX_pos]. Qed.

Lemma capped_exp_below (x : R) :
  x <= ln DBL_MAX -> Rmin (exp x) DBL_MAX = exp x.
Proof.
  intro H. apply Rmin_left. rewrite <- exp_ln_DBL_MAX.
  destruct H as [H | H]; [left; now apply exp_increasing | right; now rewrite H].
Qed.

Lemma capped_exp_above (x : R) :
  ln DBL_MAX <= x -> Rmin (exp x) DBL_MAX = DBL_MAX.
Proof.
  intro H. apply Rmin_right. rewrite <- exp_ln_DBL_MAX.
  destruct H as [H | H]; [left; now apply exp_increasing | right; now rewrite H].
Qed.

Lemma ddiv_Fin (a b : R) : b <> 0 -> (Fin a / Fin b)%D = Fin (a / b).
Proof. intro H. cbn. now rewrite (Req_bool_false _ _ H). Qed.

(** The value of [fn] on a finite argument. *)
Lemma fn_Fin (x : R) :
  fn (Fin x) = Fin (1 / (1 + Rmin (exp (- x)) DBL_MAX)).
Proof.
  unfold fn. cbn [dneg]. rewrite trunc_exp_Fin. cbn [dadd].
  apply ddiv_Fin. pose proof (capped_exp_pos (- x)). lra.
Qed.

Lemma dmul_Fin (a b : R) :
  Rabs (a * b) < overflow_threshold -> (Fin a * Fin b)%D = Fin (a * b).
Proof. intro H. cbn. now rewrite (Rle_bool_false _ _ H). Qed.

(** The product of [deriv] is finite while |y| <= 10^154 and overflows,
    to -infinity, from |y| = 2 * 10^154 on. *)
Lemma square_below_threshold :
  10 ^ 154 * (10 ^ 154 + 1) < overflow_threshold.
Proof.
  unfold overflow_threshold. rewrite pow_IZR, <- plus_IZR, <- mult_IZR.
  apply IZR_lt. vm_compute. reflexivity.
Qed.

Lemma square_above_threshold :
  overflow_threshold <= (2 * 10 ^ 154) * (2 * 10 ^ 154 - 1).
Proof.
  unfold overflow_threshold.
  rewrite pow_IZR, <- mult_IZR, <- minus_IZR, <- mult_IZR.
  apply IZR_le. vm_compute. discriminate.
Qed.

Lemma deriv_Fin_gen (y : R) :
  Rabs (y * (1 - y)) < overflow_threshold ->
  deriv (Fin y) = Fin (y * (1 - y)).
Proof.
  intro Hy. unfold deriv. cbn [dsub dneg dadd]. fold (1 - y).
  now apply dmul_Fin.
Qed.

Lemma product_below_threshold (y : R) :
  Rabs y <= 10 ^ 154 -> Rabs (y * (1 - y)) < overflow_threshold.
Proof.
  intro Hy. rewrite Rabs_mult.
  apply Rle_lt_trans with (2 := square_below_threshold).
  assert (H1 : Rabs (1 - y) <= 10 ^ 154 + 1).
  { unfold Rabs in *. destruct (Rcase_abs y); destruct (Rcase_abs (1 - y)); lra. }
  pose proof (Rabs_pos y). pose proof (Rabs_pos (1 - y)). nra.
Qed.

Lemma deriv_Fin (y : R) :
  Rabs y <= 10 ^ 154 -> deriv (Fin y) = Fin (y * (1 - y)).
Proof. intro Hy. now apply deriv_Fin_gen, product_below_threshold. Qed.

Lemma deriv_Fin_unit (y : R) :
  0 <= y <= 1 -> deriv (Fin y) = Fin (y * (1 - y)).
Proof.
  intro Hy. apply deriv_Fin. apply Rabs_le.
  assert (1 <= 10 ^ 154) by (apply pow_R1_Rle; lra). lra.
Qed.

Lemma deriv_Fin_overflow (y : R) :
  2 * 10 ^ 154 <= Rabs y -> deriv (Fin y) = NInf.
Proof.
  intro Hy. unfold deriv. cbn [dsub dneg dadd dmul]. fold (1 - y).
  assert (Hbig : 1 <= 10 ^ 154) by (apply pow_R1_Rle; lra).
  assert (Hneg : y * (1 - y) <= - ((2 * 10 ^ 154) * (2 * 10 ^ 154 - 1))).
  { unfold Rabs in Hy. destruct (Rcase_abs y); nra. }
  pose proof square_above_threshold as Hthr.
  assert (Hpos : 0 < overflow_threshold).
  { apply IZR_lt. vm_compute. reflexivity. }
  rewrite Rle_bool_true by (rewrite Rabs_left by lra; lra).
  unfold inf_of_sign.
  rewrite Req_bool_false by lra. now rewrite Rlt_bool_false by lra.
Qed.

(** The value of [inv] on a finite argument: the three branches of
    [trunc_log]. *)
Lemma inv_Fin_one : inv (Fin 1) = Fin (ln DBL_MAX).
Proof.
  unfold inv. cbn [dsub dneg dadd ddiv].
  rewrite (Req_bool_true (1 + - (1)) 0) by lra. unfold inf_of_sign.
  rewrite (Req_bool_false 1 0) by lra. rewrite (Rlt_bool_true 0 1) by lra.
  unfold arma.trunc_log. cbn. apply log_max_eq.
Qed.

Lemma inv_Fin_nonpos (y : R) :
  y <> 1 -> y / (1 - y) <= 0 -> inv (Fin y) = Fin (ln DBL_MIN).
Proof.
  intros Hy Hq. unfold inv. cbn [dsub dneg dadd].
  rewrite ddiv_Fin by lra. unfold arma.trunc_log. cbn [deq numeric_limits_infinity dle].
  fold (1 - y). rewrite (Rle_bool_true _ _ Hq). apply log_min_eq.
Qed.

Lemma inv_Fin_pos (y : R) :
  y <> 1 -> 0 < y / (1 - y) -> inv (Fin y) = Fin (logit y).
Proof.
  intros Hy Hq. unfold inv, logit. cbn [dsub dneg dadd].
  rewrite ddiv_Fin by lra. unfold arma.trunc_log. cbn [deq numeric_limits_infinity dle].
  fold (1 - y). rewrite (Rle_bool_false _ _ Hq). cbn [std_log].
  now rewrite (Rlt_bool_true _ _ Hq).
Qed.

Lemma odds_pos (y : R) : 0 < y < 1 -> 0 < y / (1 - y).
Proof. intros [H0 H1]. apply Rdiv_lt_0_compat; lra. Qed.

Lemma inv_Fin_open (y : R) : 0 < y < 1 -> inv (Fin y) = Fin (logit y).
Proof. intro H. apply inv_Fin_pos; [lra | now apply odds_pos]. Qed.

(** ** Auxiliary facts: an enclosure of e^(-1)

    e^(-1) is the sum of the alternating series of 1/n!, so two consecutive
    partial sums enclose it.  The partial sums are computed over [Z]. *)

Lemma INR_fact_factZ (n : nat) : INR (fact n) = IZR (factZ n).
Proof.
  induction n as [| k IH].
  - reflexivity.
  - rewrite fact_simpl, mult_INR, IH. cbn [factZ].
    rewrite mult_IZR, <- INR_IZR_INZ. reflexivity.
Qed.

Lemma factZ_pos (n : nat) : (0 < factZ n)%Z.
Proof. induction n as [| k IH]; cbn [factZ]; lia. Qed.

Lemma inv_fact_decreasing : Un_decreasing inv_fact.
Proof.
  intro n. unfold inv_fact. apply Rinv_le_contravar.
  - apply INR_fact_lt_0.
  - apply le_INR, fact_le. lia.
Qed.

Lemma inv_fact_cv : Un_cv inv_fact 0.
Proof.
  intros eps Heps. destruct (cv_speed_pow_fact 1 eps Heps) as [N HN].
  exists N. intros n Hn. specialize (HN n Hn).
  rewrite pow1 in HN. unfold Rdiv in HN. rewrite Rmult_1_l in HN. exact HN.
Qed.

Lemma alt_series_exp : Un_cv (fun N => sum_f_R0 (tg_alt inv_fact) N) (exp (-1)).
Proof.
  intros eps Heps. destruct (E1_cvg (-1) eps Heps) as [N HN].
  exists N. intros n Hn. specialize (HN n Hn).
  replace (sum_f_R0 (tg_alt inv_fact) n) with (E1 (-1) n); [exact HN |].
  unfold E1. apply sum_eq. intros i _. unfold tg_alt, inv_fact. ring.
Qed.

Lemma alt_sum_closed (n : nat) :
  sum_f_R0 (tg_alt inv_fact) n = IZR (alt_num n) / IZR (factZ n).
Proof.
  induction n as [| k IH].
  - cbn. unfold tg_alt, inv_fact. cbn. field.
  - cbn [sum_f_R0]. rewrite IH. unfold tg_alt, inv_fact.
    rewrite INR_fact_factZ. cbn [alt_num factZ].
    rewrite plus_IZR, !mult_IZR, <- pow_IZR.
    pose proof (factZ_pos k) as Hk. apply IZR_lt in Hk.
    assert (Hs : 0 < IZR (Z.of_nat (S k))) by (apply IZR_lt; lia).
    field. split; lra.
Qed.

Lemma exp_minus_1_bounds :
  IZR (alt_num 17) / IZR (factZ 17) <= exp (-1) <= IZR (alt_num 16) / IZR (factZ 16).
Proof.
  rewrite <- !alt_sum_closed.
  apply (alternated_series_ineq inv_fact (exp (-1)) 8).
  - apply inv_fact_decreasing.
  - apply inv_fact_cv.
  - apply alt_series_exp.
Qed.

Lemma exp_minus_1_enclosure :
  0.36787944117144 <= exp (-1) <= 0.36787944117145.
Proof.
  pose proof exp_minus_1_bounds as [Hlo Hhi].
  let v := eval vm_compute in (alt_num 17) in change (alt_num 17) with v in Hlo.
  let v := eval vm_compute in (factZ 17) in change (factZ 17) with v in Hlo.
  let v := eval vm_compute in (alt_num 16) in change (alt_num 16) with v in Hhi.
  let v := eval vm_compute in (factZ 16) in change (factZ 16) with v in Hhi.
  split; lra.
Qed.

(** ** Auxiliary facts: fractions 1 / (1 + m) *)

Lemma unit_fraction (m : R) : 0 < m -> 0 < 1 / (1 + m) < 1.
Proof.
  intro Hm. split.
  - apply Rdiv_lt_0_compat; lra.
  - apply Rmult_lt_reg_r with (1 + m); [lra |]. field_simplify; lra.
Qed.

Lemma unit_fraction_small (m k : R) : 0 < k <= m -> 1 / (1 + m) <= / k.
Proof.
  intros [Hk Hm]. unfold Rdiv. rewrite Rmult_1_l.
  apply Rinv_le_contravar; lra.
Qed.

Lemma unit_fraction_antitone (m1 m2 : R) :
  0 < m1 <= m2 -> 1 / (1 + m2) <= 1 / (1 + m1).
Proof.
  intros [H1 H2]. unfold Rdiv. rewrite !Rmult_1_l.
  apply Rinv_le_contravar; lra.
Qed.

(** ** Auxiliary facts: saturation and growth of the exponential *)


(** Below the cutoff [-ln DBL_MAX] the exponential is capped and [fn] is
    constant. *)
Lemma fn_saturated (x : R) :
  x <= - ln DBL_MAX -> fn (Fin x) = Fin (1 / (1 + DBL_MAX)).
Proof.
  intro Hx. rewrite fn_Fin, capped_exp_above by lra. reflexivity.
Qed.

Lemma fn_unsaturated (x : R) :
  - ln DBL_MAX <= x -> fn (Fin x) = Fin (logistic x).
Proof.
  intro Hx. rewrite fn_Fin, capped_exp_below by lra. reflexivity.
Qed.

Lemma fn_Fin_0 : fn (Fin 0) = Fin 0.5.
Proof.
  rewrite fn_unsaturated by lra_thresholds. unfold logistic. f_equal.
  rewrite Ropp_0, exp_0. lra.
Qed.

(** The logistic function inverts the odds: for [0 < m],
    [1 / (1 + m)] has odds [1 / m]. *)
Lemma inv_of_ratio (m : R) :
  0 < m -> inv (Fin (1 / (1 + m))) = Fin (- ln m).
Proof.
  intro Hm.
  rewrite inv_Fin_open by now apply unit_fraction. unfold logit. f_equal.
  replace (1 / (1 + m) / (1 - 1 / (1 + m))) with (/ m) by (field; lra).
  now apply ln_Rinv.
Qed.

(** ** Auxiliary facts: containers *)

Section Elementwise.

Variables (f : double -> double) (g : double -> double -> double).

Lemma combine_map_self (h : double -> double) (l : list double) :
  combine l (map h l) = map (fun e => (e, h e)) l.
Proof. induction l as [| e l IH]; cbn; [reflexivity | now rewrite IH]. Qed.

Lemma nth_map_NaN (l : list double) (i : nat) :
  (i < length l)%nat -> nth i (map f l) NaN = f (nth i l NaN).
Proof.
  intro Hi. rewrite (nth_indep _ NaN (f NaN)) by (now rewrite length_map).
  apply map_nth.
Qed.

Lemma elementwise_eop (X : arma.Mat) : elementwise f X (arma.eop f X).
Proof.
  unfold elementwise, arma.n_elem. cbn.
  repeat split; [apply length_map | apply nth_map_NaN].
Qed.

(** A binary expression whose second operand is an element-wise image of
    the first never fails the dimension check. *)
Lemma eglue_eop_self (h : double -> double) (X : arma.Mat) :
  arma.eglue g X (arma.eop h X) = Some (arma.eop (fun e => g e (h e)) X).
Proof.
  unfold arma.eglue, arma.eop. cbn. rewrite !Nat.eqb_refl. cbn.
  now rewrite combine_map_self, map_map.
Qed.

End Elementwise.

Lemma eop_compose (f h : double -> double) (X : arma.Mat) :
  arma.eop f (arma.eop h X) = arma.eop (fun e => f (h e)) X.
Proof. unfold arma.eop. cbn. now rewrite map_map. Qed.

(** ** The claims *)

(** C1.  For every real x, the forward evaluation fn(x) equals
    1 / (1 + e^(-x)) to within the tolerance 1e-9; fn(0) = 0.5 exactly, and
    fn(1.0) is 0.731058578630 to within 1e-12. *)
Theorem fn_logistic (x : R) :
  (exists r, fn (Fin x) = Fin r /\ Rabs (r - logistic x) <= 1e-9) /\
  fn (Fin 0) = Fin 0.5 /\
  exists r, fn (Fin 1) = Fin r /\ Rabs (r - 0.731058578630) <= 1e-12.
Proof.
  split; [| split].
  - destruct (Rle_dec (- ln DBL_MAX) x) as [Hge | Hlt].
    + exists (logistic x). split; [now apply fn_unsaturated |].
      replace (logistic x - logistic x) with 0 by lra. rewrite Rabs_R0. lra.
    + exists (1 / (1 + DBL_MAX)). split; [apply fn_saturated; lra |].
      assert (Hcap : DBL_MAX <= exp (- x)).
      { rewrite <- exp_ln_DBL_MAX. left. apply exp_increasing. lra. }
      thresholds.
      pose proof (unit_fraction (exp (- x)) (exp_pos _)) as [Hz0 _].
      pose proof (unit_fraction_antitone DBL_MAX (exp (- x)) ltac:(lra)) as Hanti.
      pose proof (unit_fraction_small DBL_MAX (10 ^ 9) ltac:(lra)) as Hsmall.
      unfold logistic. apply Rabs_le. lra.
  - apply fn_Fin_0.
  - exists (logistic 1). split; [apply fn_unsaturated; lra_thresholds |].
    unfold logistic. pose proof exp_minus_1_enclosure as [Hlo Hhi].
    change (- (1)) with (-1) in *.
    set (l := exp (-1)) in *.
    pose proof (unit_fraction_antitone l 0.36787944117145 ltac:(lra)) as Hdn.
    pose proof (unit_fraction_antitone 0.36787944117144 l ltac:(lra)) as Hup.
    apply Rabs_le. lra.
Qed.



(** C3.  For every y with 0.001 <= y <= 0.999, inv(y) = ln(y / (1 - y)) and
    composing the inverse then the forward evaluation returns the input:
    fn(inv(y)) = y; in particular inv(0.5) = 0. *)
Theorem fn_inv_roundtrip (y : R) (Hy : 0.001 <= y <= 0.999) :
  inv (Fin y) = Fin (logit y) /\
  fn (inv (Fin y)) = Fin y /\
  inv (Fin 0.5) = Fin 0.
Proof.
  assert (Hopen : 0 < y < 1) by lra.
  pose proof (odds_pos y Hopen) as Hodds.
  split; [| split].
  - now apply inv_Fin_open.
  - rewrite inv_Fin_open by exact Hopen.
    assert (Hexp : exp (- logit y) = (1 - y) / y).
    { unfold logit. rewrite exp_Ropp, exp_ln by exact Hodds. field. lra. }
    rewrite fn_Fin, Rmin_left.
    + rewrite Hexp. f_equal. field. lra.
    + rewrite Hexp. pose proof DBL_MAX_big as Hbig.
      apply Rle_trans with 999; [| lra].
      apply Rmult_le_reg_r with y; [lra |].
      replace ((1 - y) / y * y) with (1 - y) by (field; lra). lra.
  - rewrite inv_Fin_open by lra. unfold logit. f_equal.
    replace (0.5 / (1 - 0.5)) with 1 by lra. apply ln_1.
Qed.

(** C3 at y = 0.25. *)
Lemma fn_inv_roundtrip_witness :
  0.001 <= 0.25 <= 0.999 /\ fn (inv (Fin 0.25)) = Fin 0.25.
Proof.
  assert (H : 0.001 <= 0.25 <= 0.999) by lra.
  split; [exact H | exact (proj1 (proj2 (fn_inv_roundtrip 0.25 H)))].
Defined.

(** C4, counterexample.  At y = 0 and at y = 1 the inverse does not return
    an infinity: the truncated logarithm returns its two finite sentinels,
    ln(DBL_MIN) and ln(DBL_MAX). *)
Lemma inv_boundary_not_infinite :
  inv (Fin 0) = Fin (ln DBL_MIN) /\ is_infinite (inv (Fin 0)) = false /\
  inv (Fin 1) = Fin (ln DBL_MAX) /\ is_infinite (inv (Fin 1)) = false.
Proof.
  assert (H0 : inv (Fin 0) = Fin (ln DBL_MIN)) by (apply inv_Fin_nonpos; lra).
  rewrite H0, inv_Fin_one. repeat split; reflexivity.
Qed.

(** C4 (amended).  The inverse evaluation performs no domain validation and
    never raises an error: for every finite input, inside the domain or
    not, it returns a finite number.  For y = 0, and for every y outside
    [0, 1], it returns ln(DBL_MIN); for y = 1 it returns ln(DBL_MAX). *)
Theorem inv_total_finite (y : R) :
  (exists r, inv (Fin y) = Fin r) /\
  (y <= 0 \/ 1 < y -> inv (Fin y) = arma.log_min) /\
  inv (Fin 0) = arma.log_min /\
  inv (Fin 1) = arma.log_max /\
  arma.log_min = Fin (ln DBL_MIN) /\
  arma.log_max = Fin (ln DBL_MAX).
Proof.
  rewrite log_min_eq, log_max_eq.
  assert (Hout : y <= 0 \/ 1 < y -> inv (Fin y) = Fin (ln DBL_MIN)).
  { intro H. apply inv_Fin_nonpos; [lra |].
    destruct H as [H | H].
    - apply Rmult_le_reg_r with (1 - y); [lra |].
      replace (y / (1 - y) * (1 - y)) with y by (field; lra). lra.
    - replace (y / (1 - y)) with (- (y / (y - 1))) by (field; lra).
      assert (0 < y / (y - 1)) by (apply Rdiv_lt_0_compat; lra). lra. }
  repeat split; try reflexivity.
  - destruct (Rle_dec y 0) as [Hle | Hgt]; [eexists; apply Hout; now left |].
    destruct (Rlt_dec 1 y) as [Hlt | Hge]; [eexists; apply Hout; now right |].
    destruct (Req_dec_T y 1) as [-> | Hne]; [eexists; apply inv_Fin_one |].
    eexists. apply inv_Fin_open. lra.
  - exact Hout.
  - apply inv_Fin_nonpos; lra.
  - apply inv_Fin_one.
Qed.

(** The amended C4 at y = 2, outside the domain of the logit. *)
Lemma inv_total_finite_witness :
  (2 <= 0 \/ 1 < 2) /\ inv (Fin 2) = arma.log_min.
Proof.
  assert (H : 2 <= 0 \/ 1 < 2) by (right; lra).
  split; [exact H | exact (proj1 (proj2 (inv_total_finite 2)) H)].
Defined.

(** C5, counterexample.  At y = 2^1000 the product overflows: deriv returns
    -infinity, which is not the number y * (1 - y). *)
Lemma deriv_overflows :
  Binary64.deriv 0x1p1000 = neg_infinity /\
  deriv (Fin (2 ^ 1000)) = NInf /\
  deriv (Fin (2 ^ 1000)) <> Fin (2 ^ 1000 * (1 - 2 ^ 1000)).
Proof.
  assert (H : deriv (Fin (2 ^ 1000)) = NInf).
  { apply deriv_Fin_overflow. rewrite Rabs_right by (left; apply pow_lt; lra).
    rewrite !pow_IZR, <- mult_IZR. apply IZR_le. vm_compute. discriminate. }
  split; [reflexivity |]. split; [exact H |]. rewrite H. discriminate.
Qed.

(** C5 (amended).  With no validation of its input, deriv(y) is the product
    y * (1 - y) of doubles: it is the real number y * (1 - y) to within
    rounding (1e-9 * max(1, y^2)) for |y| <= 10^154, and -infinity, the
    overflowed product, for |y| >= 2 * 10^154.  For y in (0, 1) the value
    is in (0, 0.25], and the maximum is deriv(0.5) = 0.25. *)
Theorem deriv_range (y : R) :
  (Rabs y <= 10 ^ 154 ->
   exists d, deriv (Fin y) = Fin d /\
             Rabs (d - y * (1 - y)) <= 1e-9 * Rmax 1 (y * y)) /\
  (2 * 10 ^ 154 <= Rabs y -> deriv (Fin y) = NInf) /\
  (0 < y < 1 -> exists d, deriv (Fin y) = Fin d /\ 0 < d <= 0.25) /\
  deriv (Fin 0.5) = Fin 0.25 /\
  Binary64.deriv 0.5 = 0.25%float.
Proof.
  split; [| split; [exact (deriv_Fin_overflow y) |]].
  2: split; [| split; [| reflexivity]].
  - intro Hy. exists (y * (1 - y)). split; [now apply deriv_Fin |].
    replace (y * (1 - y) - y * (1 - y)) with 0 by lra. rewrite Rabs_R0.
    pose proof (Rmax_l 1 (y * y)). lra.
  - intros [H0 H1]. exists (y * (1 - y)).
    split; [apply deriv_Fin_unit; lra |].
    split; [apply Rmult_lt_0_compat; lra |].
    replace 0.25 with (1 / 4) by lra.
    pose proof (pow2_ge_0 (y - 1 / 2)). nra.
  - rewrite deriv_Fin_unit by lra. f_equal. lra.
Qed.

(** The amended C5 at y = 0.25. *)
Lemma deriv_range_witness :
  0 < 0.25 < 1 /\ exists d, deriv (Fin 0.25) = Fin d /\ 0 < d <= 0.25.
Proof.
  assert (H : 0 < 0.25 < 1) by lra.
  split; [exact H |].
  exact (proj1 (proj2 (proj2 (deriv_range 0.25))) H).
Defined.

(** C6.  For every input container, the container forms of fn, deriv and
    inv succeed and produce a container of the same dimensions and element
    count whose every element is the scalar form applied to the
    corresponding input element. *)
Theorem container_parity (inp out : arma.Mat) :
  elementwise fn inp (fn_vec inp out) /\
  (exists res, deriv_vec inp out = Some res /\ elementwise deriv inp res) /\
  (exists res, inv_vec inp out = Some res /\ elementwise inv inp res).
Proof.
  split; [| split].
  - unfold fn_vec, arma.scalar_div_pre, arma.scalar_plus, arma.trunc_exp_mat,
      arma.neg. rewrite !eop_compose. apply (elementwise_eop fn).
  - unfold deriv_vec, arma.schur, arma.scalar_minus_pre.
    rewrite eglue_eop_self. eexists. split; [reflexivity |].
    apply (elementwise_eop deriv).
  - unfold inv_vec, arma.div, arma.scalar_minus_pre, arma.trunc_log_mat.
    rewrite eglue_eop_self. cbn [option_map]. rewrite eop_compose.
    eexists. split; [reflexivity |]. apply (elementwise_eop inv).
Qed.

(** C7.  For every finite x, fn(x) + fn(-x) is 1 to within 1e-9, and
    exactly 1 when |x| <= ln(DBL_MAX). *)
Theorem fn_symmetry (x : R) :
  exists s, (fn (Fin x) + fn (- Fin x))%D = Fin s /\
            Rabs (s - 1) <= 1e-9 /\
            (- ln DBL_MAX <= x <= ln DBL_MAX -> s = 1).
Proof.
  cbn [dneg]. rewrite !fn_Fin. cbn [dadd]. eexists. split; [reflexivity |].
  rewrite Ropp_involutive.
  pose proof DBL_MAX_big as Hbig. pose proof DBL_MAX_pos as HM.
  assert (Hexact : - ln DBL_MAX <= x <= ln DBL_MAX ->
    1 / (1 + Rmin (exp (- x)) DBL_MAX) + 1 / (1 + Rmin (exp x) DBL_MAX) = 1).
  { intros [Hlo Hhi]. rewrite !capped_exp_below by lra.
    rewrite exp_Ropp. pose proof (exp_pos x). field. split; lra. }
  assert (Htail : forall e : R, 0 < e -> e * DBL_MAX <= 1 ->
    Rabs (1 / (1 + DBL_MAX) + 1 / (1 + e) - 1) <= 1e-9).
  { intros e He Hprod.
    replace (1 / (1 + DBL_MAX) + 1 / (1 + e) - 1)
      with (1 / (1 + DBL_MAX) - e / (1 + e)) by (field; lra).
    assert (H1 : 0 < 1 / (1 + DBL_MAX) <= 1e-9).
    { split; [now apply unit_fraction |].
      pose proof (unit_fraction_small DBL_MAX (10 ^ 9) ltac:(lra)). lra. }
    assert (H2 : 0 < e / (1 + e) <= 1e-9).
    { split; [apply Rdiv_lt_0_compat; lra |].
      apply Rmult_le_reg_r with (1 + e); [lra |].
      replace (e / (1 + e) * (1 + e)) with e by (field; lra). nra. }
    apply Rabs_le. lra. }
  assert (Hsmall : forall z, ln DBL_MAX <= z -> exp (- z) * DBL_MAX <= 1).
  { intros z Hz. rewrite exp_Ropp.
    assert (DBL_MAX <= exp z).
    { rewrite <- exp_ln_DBL_MAX. destruct Hz as [Hz | Hz];
        [left; now apply exp_increasing | right; now rewrite Hz]. }
    apply Rmult_le_reg_r with (exp z); [apply exp_pos |].
    replace (/ exp z * DBL_MAX * exp z) with DBL_MAX
      by (field; apply exp_neq_0). lra. }
  split; [| exact Hexact].
  destruct (Rle_dec x (- ln DBL_MAX)) as [Hlo | Hlo].
  - rewrite (capped_exp_above (- x)) by lra.
    rewrite (capped_exp_below x) by (pose proof ln_DBL_MAX_pos; lra).
    replace x with (- - x) at 1 by lra.
    apply Htail; [apply exp_pos |]. rewrite Ropp_involutive.
    replace x with (- - x) by lra. apply Hsmall. lra.
  - destruct (Rle_dec (ln DBL_MAX) x) as [Hhi | Hhi].
    + rewrite (capped_exp_above x) by lra.
      rewrite (capped_exp_below (- x)) by (pose proof ln_DBL_MAX_pos; lra).
      rewrite Rplus_comm.
      apply Htail; [apply exp_pos | now apply Hsmall].
    + rewrite Hexact by lra. replace (1 - 1) with 0 by lra.
      rewrite Rabs_R0. lra.
Qed.

(** C7 at x = 1, where the sum is exactly 1. *)
Lemma fn_symmetry_witness :
  - ln DBL_MAX <= 1 <= ln DBL_MAX /\
  exists s, (fn (Fin 1) + fn (- Fin 1))%D = Fin s /\ s = 1.
Proof.
  assert (H : - ln DBL_MAX <= 1 <= ln DBL_MAX) by lra_thresholds.
  split; [exact H |].
  destruct (fn_symmetry 1) as [s [Hs [_ Hone]]].
  exists s. split; [exact Hs | exact (Hone H)].
Defined.

(** C8, counterexample.  -2048 < -1024, and fn takes the same value at
    both: below the cutoff of the truncated exponential fn is constant. *)
Lemma fn_flat_below_cutoff :
  -2048 < -1024 /\ fn (Fin (-2048)) = fn (Fin (-1024)).
Proof.
  pose proof ln_DBL_MAX_lt. split; [lra |].
  rewrite !fn_saturated by lra. reflexivity.
Qed.

(** C8 (amended).  fn is monotonically non-decreasing, not strictly
    increasing: for every pair of reals x1 < x2, fn(x1) <= fn(x2), and for
    inputs at or below -ln(DBL_MAX) fn is constant, 1 / (1 + DBL_MAX). *)
Theorem fn_monotone (x1 x2 : R) (Hlt : x1 < x2) :
  (exists r1 r2, fn (Fin x1) = Fin r1 /\ fn (Fin x2) = Fin r2 /\ r1 <= r2) /\
  (forall z, z <= - ln DBL_MAX -> fn (Fin z) = Fin (1 / (1 + DBL_MAX))).
Proof.
  split; [| exact fn_saturated].
  rewrite !fn_Fin. do 2 eexists. split; [reflexivity |]. split; [reflexivity |].
  pose proof (capped_exp_pos (- x2)) as H2.
  assert (Hexp : exp (- x2) < exp (- x1)) by (apply exp_increasing; lra).
  apply unit_fraction_antitone. split; [exact H2 |].
  apply Rle_min_compat_r. lra.
Qed.

(** The amended C8 at x1 = 0 and x2 = 1. *)
Lemma fn_monotone_witness :
  0 < 1 /\
  exists r1 r2, fn (Fin 0) = Fin r1 /\ fn (Fin 1) = Fin r2 /\ r1 <= r2.
Proof.
  assert (H01 : 0 < 1) by lra.
  split; [exact H01 | exact (proj1 (fn_monotone 0 1 H01))].
Defined.

(** C9, counterexample.  On binary64 numbers, at y = 2^-60:
    deriv(y) = 2^-60, but 1 - y rounds to 1 and deriv(1 - y) = 0. *)
Lemma deriv_asymmetric_binary64 :
  Binary64.deriv 0x1p-60 = 0x1p-60%float /\
  Binary64.deriv (1 - 0x1p-60) = 0%float /\
  (0x1p-60 =? 0)%float = false.
Proof. repeat split. Qed.

(** C9 (amended).  deriv is symmetric about y = 0.5 up to rounding: for
    every real y with |y| <= 10^154, deriv(y) and deriv(1 - y) are finite
    and differ by at most 1e-9 * max(1, y^2); and
    deriv(0) = deriv(1) = 0 exactly. *)
Theorem deriv_symmetric (y : R) (Hy : Rabs y <= 10 ^ 154) :
  (exists d1 d2, deriv (Fin y) = Fin d1 /\
                 deriv (Fin 1 - Fin y)%D = Fin d2 /\
                 Rabs (d1 - d2) <= 1e-9 * Rmax 1 (y * y)) /\
  deriv (Fin 0) = Fin 0 /\
  deriv (Fin 1) = Fin 0 /\
  Binary64.deriv 0 = 0%float /\
  Binary64.deriv 1 = 0%float.
Proof.
  split; [| split; [| split; [| split; reflexivity]]].
  - exists (y * (1 - y)), (y * (1 - y)).
    split; [now apply deriv_Fin |]. split.
    + cbn [dsub dneg dadd]. rewrite deriv_Fin_gen.
      * f_equal. lra.
      * replace ((1 + - y) * (1 - (1 + - y))) with (y * (1 - y)) by lra.
        now apply product_below_threshold.
    + replace (y * (1 - y) - y * (1 - y)) with 0 by lra. rewrite Rabs_R0.
      pose proof (Rmax_l 1 (y * y)). lra.
  - rewrite deriv_Fin_unit by lra. f_equal. lra.
  - rewrite deriv_Fin_unit by lra. f_equal. lra.
Qed.

(** The amended C9 at y = 0.25. *)
Lemma deriv_symmetric_witness :
  Rabs 0.25 <= 10 ^ 154 /\
  exists d1 d2, deriv (Fin 0.25) = Fin d1 /\
                deriv (Fin 1 - Fin 0.25)%D = Fin d2 /\
                Rabs (d1 - d2) <= 1e-9 * Rmax 1 (0.25 * 0.25).
Proof.
  assert (H : Rabs 0.25 <= 10 ^ 154).
  { rewrite Rabs_right by lra.
    assert (1 <= 10 ^ 154) by (apply pow_R1_Rle; lra). lra. }
  split; [exact H | exact (proj1 (deriv_symmetric 0.25 H))].
Defined.

(** C10, counterexample.  At x = -2048 the forward value lies strictly
    inside (0, 1), yet the inverse of it is -ln(DBL_MAX), more than 1000
    away from x. *)
Lemma inv_fn_below_cutoff :
  (exists r, fn (Fin (-2048)) = Fin r /\ 0 < r < 1) /\
  inv (fn (Fin (-2048))) = Fin (- ln DBL_MAX) /\
  1000 < Rabs (- ln DBL_MAX - -2048).
Proof.
  pose proof ln_DBL_MAX_lt as Hlt. pose proof DBL_MAX_pos as HM.
  assert (Hfn : fn (Fin (-2048)) = Fin (1 / (1 + DBL_MAX)))
    by (apply fn_saturated; lra).
  split; [| split].
  - exists (1 / (1 + DBL_MAX)). split; [exact Hfn |]. now apply unit_fraction.
  - rewrite Hfn. now apply inv_of_ratio.
  - rewrite Rabs_right; lra.
Qed.

(** C10 (amended).  Composing forward then inverse recovers the input to
    within the tolerance 1e-9 for every real x with
    -ln(DBL_MAX) <= x <= 10: there fn(x) lies strictly inside (0, 1) and
    |inv(fn(x)) - x| <= 1e-9. *)
Theorem inv_fn_roundtrip (x : R) (Hx : - ln DBL_MAX <= x <= 10) :
  (exists y, fn (Fin x) = Fin y /\ 0 < y < 1) /\
  exists r, inv (fn (Fin x)) = Fin r /\ Rabs (r - x) <= 1e-9.
Proof.
  split.
  - eexists. split; [apply fn_Fin |]. apply unit_fraction, capped_exp_pos.
  - exists x. split.
    + rewrite fn_Fin, capped_exp_below by lra.
      rewrite inv_of_ratio by apply exp_pos.
      f_equal. rewrite ln_exp. lra.
    + replace (x - x) with 0 by lra. rewrite Rabs_R0. lra.
Qed.

(** The amended C10 at x = 1. *)
Lemma inv_fn_roundtrip_witness :
  - ln DBL_MAX <= 1 <= 10 /\
  exists r, inv (fn (Fin 1)) = Fin r /\ Rabs (r - 1) <= 1e-9.
Proof.
  assert (H : - ln DBL_MAX <= 1 <= 10) by lra_thresholds.
  split; [exact H | exact (proj2 (inv_fn_roundtrip 1 H))].
Defined.

(** ** Further properties of the class

    The properties below go beyond the claims: the behaviour of the three
    scalar operations on the IEEE special values, how they compose, and
    what the guarded exponential and logarithm do to the round trips. *)

(** *** Auxiliary facts *)

Lemma trunc_exp_PInf : arma.trunc_exp PInf = Fin DBL_MAX.
Proof. unfold arma.trunc_exp. now rewrite log_max_eq. Qed.

Lemma trunc_exp_NInf : arma.trunc_exp NInf = Fin 0.
Proof. unfold arma.trunc_exp. now rewrite log_max_eq. Qed.

Lemma trunc_exp_NaN : arma.trunc_exp NaN = NaN.
Proof. unfold arma.trunc_exp. now rewrite log_max_eq. Qed.

Lemma fn_PInf : fn PInf = Fin 1.
Proof.
  unfold fn. cbn [dneg]. rewrite trunc_exp_NInf. cbn [dadd].
  rewrite ddiv_Fin by lra. f_equal. lra.
Qed.

Lemma fn_NInf : fn NInf = Fin (1 / (1 + DBL_MAX)).
Proof.
  unfold fn. cbn [dneg]. rewrite trunc_exp_PInf. cbn [dadd].
  apply ddiv_Fin. pose proof DBL_MAX_pos. lra.
Qed.

Lemma fn_NaN : fn NaN = NaN.
Proof. unfold fn. cbn [dneg]. now rewrite trunc_exp_NaN. Qed.

Lemma capped_exp_le (x : R) : Rmin (exp x) DBL_MAX <= DBL_MAX.
Proof. apply Rmin_r. Qed.

Lemma trunc_log_NaN : arma.trunc_log NaN = NaN.
Proof. reflexivity. Qed.

Lemma inv_Fin_finite (y : R) : exists r, inv (Fin y) = Fin r.
Proof.
  destruct (Req_dec_T y 1) as [-> | Hne]; [eexists; apply inv_Fin_one |].
  destruct (Rle_dec (y / (1 - y)) 0) as [Hle | Hgt].
  - eexists. now apply inv_Fin_nonpos.
  - eexists. apply inv_Fin_pos; [exact Hne | lra].
Qed.

(** *** Special values *)

(** X1.  fn is defined on every double.  It returns NaN for NaN and for
    nothing else; every other input, the two infinities included, gives a
    finite value between 1 / (1 + DBL_MAX) and 1: fn(+infinity) = 1 and
    fn(-infinity) = 1 / (1 + DBL_MAX). *)
Theorem fn_all_doubles (x : double) :
  (fn x = NaN <-> x = NaN) /\
  (x <> NaN -> exists r, fn x = Fin r /\ 1 / (1 + DBL_MAX) <= r <= 1) /\
  fn PInf = Fin 1 /\
  fn NInf = Fin (1 / (1 + DBL_MAX)).
Proof.
  pose proof DBL_MAX_pos as HM.
  assert (Hfin : forall z, exists r,
            fn (Fin z) = Fin r /\ 1 / (1 + DBL_MAX) <= r <= 1).
  { intro z. eexists. split; [apply fn_Fin |].
    pose proof (capped_exp_pos (- z)) as Hpos.
    pose proof (capped_exp_le (- z)) as Hle.
    pose proof (unit_fraction _ Hpos) as [_ Hlt].
    pose proof (unit_fraction_antitone _ DBL_MAX (conj Hpos Hle)). lra. }
  split; [| split; [| split; [apply fn_PInf | apply fn_NInf]]].
  - split.
    + destruct x as [z | | |]; try reflexivity.
      * destruct (Hfin z) as [r [Hr _]]. rewrite Hr. discriminate.
      * rewrite fn_PInf. discriminate.
      * rewrite fn_NInf. discriminate.
    + intros ->. apply fn_NaN.
  - intro Hx. destruct x as [z | | |].
    + apply Hfin.
    + exists 1. split; [apply fn_PInf |].
      pose proof (unit_fraction _ HM). lra.
    + eexists. split; [apply fn_NInf |].
      pose proof (unit_fraction _ HM). lra.
    + contradiction.
Qed.

(** X1 at +infinity. *)
Lemma fn_all_doubles_witness :
  PInf <> NaN /\ exists r, fn PInf = Fin r /\ 1 / (1 + DBL_MAX) <= r <= 1.
Proof.
  assert (H : PInf <> NaN) by discriminate.
  split; [exact H | exact (proj1 (proj2 (fn_all_doubles PInf)) H)].
Defined.

(** X2.  deriv returns NaN for NaN and for nothing else, and -infinity
    for either infinity; whatever the input, a result that is not NaN is
    at most 0.25. *)
Theorem deriv_all_doubles (y : double) :
  (deriv y = NaN <-> y = NaN) /\
  (is_infinite y = true -> deriv y = NInf) /\
  (y <> NaN -> (deriv y <= Fin 0.25)%D = true).
Proof.
  destruct y as [z | | |]; cbn.
  - assert (Hq : z * (1 + - z) <= 1 / 4)
      by (pose proof (pow2_ge_0 (z - 1 / 2)); nra).
    pose proof one_lt_threshold as Hthr.
    destruct (Rle_dec overflow_threshold (Rabs (z * (1 + - z)))) as [Ho | Ho].
    + rewrite (Rle_bool_true _ _ Ho).
      assert (Hneg : z * (1 + - z) < 0).
      { unfold Rabs in Ho. destruct (Rcase_abs (z * (1 + - z))); lra. }
      unfold inf_of_sign.
      rewrite Req_bool_false, Rlt_bool_false by lra.
      split; [split; discriminate |]. split; [discriminate | reflexivity].
    + rewrite Rle_bool_false by lra.
      split; [split; discriminate |]. split; [discriminate |].
      intros _. apply Rle_bool_true. lra.
  - split; [split; discriminate |]. repeat split.
  - split; [split; discriminate |]. repeat split.
  - split; [split; reflexivity |]. split; [discriminate |].
    intro H. now elim H.
Qed.

(** X2 at -infinity. *)
Lemma deriv_all_doubles_witness :
  is_infinite NInf = true /\ deriv NInf = NInf.
Proof.
  assert (H : is_infinite NInf = true) by reflexivity.
  split; [exact H | exact (proj1 (proj2 (deriv_all_doubles NInf)) H)].
Defined.

(** X3.  inv never returns an infinity, whatever the input; it returns NaN
    exactly when the input is NaN or an infinity, and a finite value
    otherwise. *)
Theorem inv_all_doubles (y : double) :
  is_infinite (inv y) = false /\
  (inv y = NaN <-> (y = NaN \/ is_infinite y = true)) /\
  ((exists r, inv y = Fin r) <-> (exists z, y = Fin z)).
Proof.
  destruct y as [z | | |].
  - destruct (inv_Fin_finite z) as [r Hr]. rewrite Hr. cbn.
    split; [reflexivity |]. split.
    + split; [discriminate | intros [H | H]; discriminate].
    + split; intros _; eauto.
  - cbn. split; [reflexivity |]. split.
    + split; [intros _; now right | reflexivity].
    + split; intros [r Hr]; discriminate.
  - cbn. split; [reflexivity |]. split.
    + split; [intros _; now right | reflexivity].
    + split; intros [r Hr]; discriminate.
  - cbn. split; [reflexivity |]. split.
    + split; [intros _; now left | reflexivity].
    + split; intros [r Hr]; discriminate.
Qed.

(** *** Auxiliary facts: the two sentinels *)



Lemma DBL_MIN_lt_1 : DBL_MIN < 1.
Proof.
  unfold DBL_MIN. rewrite <- Rinv_1. apply Rinv_lt_contravar.
  - rewrite Rmult_1_l. apply IZR_lt. vm_compute. reflexivity.
  - apply IZR_lt. vm_compute. reflexivity.
Qed.

Lemma exp_opp_ln (m : R) : 0 < m -> exp (- ln m) = / m.
Proof. intro Hm. now rewrite exp_Ropp, exp_ln. Qed.



Lemma fn_cutoff : fn (Fin (- ln DBL_MAX)) = Fin (1 / (1 + DBL_MAX)).
Proof. apply fn_saturated. lra. Qed.

(** The inverse of a forward value, whatever the input. *)
Lemma inv_fn_Fin (x : R) :
  inv (fn (Fin x)) = Fin (Rmax x (- ln DBL_MAX)).
Proof.
  rewrite fn_Fin, inv_of_ratio by apply capped_exp_pos. f_equal.
  destruct (Rle_dec (- ln DBL_MAX) x) as [Hge | Hlt].
  - rewrite capped_exp_below, ln_exp, Rmax_left by lra. lra.
  - rewrite capped_exp_above, Rmax_right by lra. reflexivity.
Qed.

(** *** Composition *)

(** X4.  To within the tolerance 1e-9: below the cutoff the inverse of
    a forward value is the cutoff itself, inv(fn(x)) = -ln(DBL_MAX) for
    x <= -ln(DBL_MAX); and for every finite x a second forward evaluation
    reproduces the first, fn(inv(fn(x))) = fn(x). *)
Theorem inv_fn_clamps (x : R) :
  (x <= - ln DBL_MAX ->
   exists r, inv (fn (Fin x)) = Fin r /\ Rabs (r - - ln DBL_MAX) <= 1e-9) /\
  exists r1 r2, fn (Fin x) = Fin r1 /\
                fn (inv (fn (Fin x))) = Fin r2 /\
                Rabs (r2 - r1) <= 1e-9.
Proof.
  assert (Hzero : forall a, Rabs (a - a) <= 1e-9).
  { intro a. replace (a - a) with 0 by lra. rewrite Rabs_R0. lra. }
  split.
  - intro Hx. exists (- ln DBL_MAX). split; [| apply Hzero].
    rewrite inv_fn_Fin, Rmax_right by exact Hx. reflexivity.
  - exists (1 / (1 + Rmin (exp (- x)) DBL_MAX)),
           (1 / (1 + Rmin (exp (- x)) DBL_MAX)).
    split; [apply fn_Fin |]. split; [| apply Hzero].
    rewrite inv_fn_Fin.
    destruct (Rle_dec (- ln DBL_MAX) x) as [Hge | Hlt].
    + rewrite Rmax_left by exact Hge. apply fn_Fin.
    + rewrite Rmax_right, fn_cutoff, capped_exp_above by lra. reflexivity.
Qed.

(** X4 at x = -2048. *)
Lemma inv_fn_clamps_witness :
  -2048 <= - ln DBL_MAX /\
  exists r, inv (fn (Fin (-2048))) = Fin r /\ Rabs (r - - ln DBL_MAX) <= 1e-9.
Proof.
  assert (H : -2048 <= - ln DBL_MAX) by lra_thresholds.
  split; [exact H | exact (proj1 (inv_fn_clamps (-2048)) H)].
Defined.

(** Forward after inverse, on the part of (0, 1) where the exponential is
    not capped and on the part where it is. *)
Lemma exp_opp_logit (y : R) : 0 < y < 1 -> exp (- logit y) = (1 - y) / y.
Proof.
  intro Hy. unfold logit.
  rewrite exp_opp_ln by now apply odds_pos. field. lra.
Qed.

Lemma inverse_odds_capped (y : R) :
  0 < y < 1 -> ((1 - y) / y <= DBL_MAX <-> 1 / (1 + DBL_MAX) <= y).
Proof.
  intro Hy. pose proof DBL_MAX_pos as HM. split; intro H.
  - apply Rmult_le_reg_r with (1 + DBL_MAX); [lra |].
    replace (1 / (1 + DBL_MAX) * (1 + DBL_MAX)) with 1 by (field; lra).
    apply (Rmult_le_compat_r y) in H; [| lra].
    replace ((1 - y) / y * y) with (1 - y) in H by (field; lra). lra.
  - apply Rmult_le_reg_r with y; [lra |].
    replace ((1 - y) / y * y) with (1 - y) by (field; lra).
    apply (Rmult_le_compat_r (1 + DBL_MAX)) in H; [| lra].
    replace (1 / (1 + DBL_MAX) * (1 + DBL_MAX)) with 1 in H by (field; lra).
    lra.
Qed.

Lemma fn_inv_Fin (y : R) :
  1 / (1 + DBL_MAX) <= y < 1 -> fn (inv (Fin y)) = Fin y.
Proof.
  intro Hy. pose proof DBL_MAX_pos as HM.
  pose proof (unit_fraction _ HM) as [Hu0 Hu1].
  assert (Hopen : 0 < y < 1) by lra.
  rewrite inv_Fin_open, fn_Fin, exp_opp_logit by exact Hopen.
  rewrite Rmin_left by (apply inverse_odds_capped; [exact Hopen | lra]).
  f_equal. field. lra.
Qed.

(** X5.  Forward after inverse returns y exactly on the whole interval
    1 / (1 + DBL_MAX) <= y < 1; for 0 < y below that interval it returns
    1 / (1 + DBL_MAX) instead. *)
Theorem fn_inv_domain (y : R) :
  (1 / (1 + DBL_MAX) <= y < 1 -> fn (inv (Fin y)) = Fin y) /\
  (0 < y <= 1 / (1 + DBL_MAX) -> fn (inv (Fin y)) = Fin (1 / (1 + DBL_MAX))).
Proof.
  pose proof DBL_MAX_pos as HM.
  pose proof (unit_fraction _ HM) as [Hu0 Hu1].
  split; intro Hy; [now apply fn_inv_Fin |].
  assert (Hopen : 0 < y < 1) by lra.
  rewrite inv_Fin_open, fn_Fin, exp_opp_logit by exact Hopen.
  rewrite Rmin_right; [reflexivity |].
  destruct (Rle_dec ((1 - y) / y) DBL_MAX) as [Hle | Hgt]; [| lra].
  apply inverse_odds_capped in Hle; [| exact Hopen].
  assert (y = 1 / (1 + DBL_MAX)) as -> by lra.
  right. field. lra.
Qed.

(** X5 at y = 0.5. *)
Lemma fn_inv_domain_witness :
  1 / (1 + DBL_MAX) <= 0.5 < 1 /\ fn (inv (Fin 0.5)) = Fin 0.5.
Proof.
  assert (H : 1 / (1 + DBL_MAX) <= 0.5 < 1).
  { thresholds. pose proof (unit_fraction_small DBL_MAX (10 ^ 9) ltac:(lra)).
    lra. }
  split; [exact H | exact (proj1 (fn_inv_domain 0.5) H)].
Defined.




(** *** The derivative *)

Lemma logistic_pos (x : R) : 0 < logistic x < 1.
Proof. apply unit_fraction, exp_pos. Qed.

Lemma logistic_opp (x : R) : logistic (- x) = 1 - logistic x.
Proof.
  unfold logistic. rewrite Ropp_involutive, exp_Ropp.
  pose proof (exp_pos x). field. split; lra.
Qed.

(** The closed form is differentiable everywhere, with derivative
    f (1 - f). *)
Lemma logistic_derivative (x : R) :
  derivable_pt_lim logistic x (logistic x * (1 - logistic x)).
Proof.
  pose proof (exp_pos (- x)) as He.
  assert (Hinner : derivable_pt_lim (comp exp (- id)%F) x (exp (- x) * -1)).
  { apply derivable_pt_lim_comp.
    - apply derivable_pt_lim_opp, derivable_pt_lim_id.
    - apply derivable_pt_lim_exp. }
  assert (Hden : derivable_pt_lim (fct_cte 1 + comp exp (- id))%F x
                   (0 + exp (- x) * -1)).
  { apply derivable_pt_lim_plus; [apply derivable_pt_lim_const | exact Hinner]. }
  pose proof (derivable_pt_lim_div (fct_cte 1) _ x 0 _
                (derivable_pt_lim_const 1 x) Hden) as Hdiv.
  unfold plus_fct, fct_cte, comp, opp_fct, id in Hdiv.
  specialize (Hdiv ltac:(lra)).
  apply derivable_pt_lim_ext
    with (f := (fct_cte 1 / (fct_cte 1 + comp exp (- id)))%F).
  - intro z. reflexivity.
  - replace (logistic x * (1 - logistic x))
      with ((0 * (1 + exp (- x)) - (0 + exp (- x) * -1) * 1)
            / Rsqr (1 + exp (- x))); [exact Hdiv |].
    unfold logistic, Rsqr. field. lra.
Qed.

(** X7.  deriv applied to the forward value is the derivative of the
    forward evaluation: if g gives the value of fn on the finite inputs,
    then for every x above the cutoff -ln(DBL_MAX) g is differentiable at
    x with derivative deriv(fn(x)). *)
Theorem deriv_is_derivative_of_fn (g : R -> R) (x : R)
    (Hg : forall z, fn (Fin z) = Fin (g z)) (Hx : - ln DBL_MAX < x) :
  exists d, deriv (fn (Fin x)) = Fin d /\ derivable_pt_lim g x d.
Proof.
  exists (logistic x * (1 - logistic x)). split.
  - rewrite fn_unsaturated by lra. apply deriv_Fin_unit.
    pose proof (logistic_pos x). lra.
  - apply derivable_pt_lim_locally_ext
      with (f := logistic) (a := - ln DBL_MAX) (b := x + 1); [lra | |].
    + intros z Hz. specialize (Hg z). rewrite fn_unsaturated in Hg by lra.
      now injection Hg.
    + apply logistic_derivative.
Qed.

(** X7 with the value of fn itself for g, at x = 0. *)
Lemma deriv_is_derivative_of_fn_witness :
  exists g, (forall z, fn (Fin z) = Fin (g z)) /\ - ln DBL_MAX < 0 /\
            exists d, deriv (fn (Fin 0)) = Fin d /\ derivable_pt_lim g 0 d.
Proof.
  exists (fun z => 1 / (1 + Rmin (exp (- z)) DBL_MAX)).
  assert (Hx : - ln DBL_MAX < 0) by lra_thresholds.
  split; [exact fn_Fin |]. split; [exact Hx |].
  exact (deriv_is_derivative_of_fn _ 0 fn_Fin Hx).
Defined.

(** X8.  Below the cutoff deriv applied to the forward value is not the
    derivative of the forward evaluation: fn is flat there, with
    derivative 0, while deriv(fn(x)) is the positive constant
    DBL_MAX / (1 + DBL_MAX)^2. *)
Theorem deriv_of_fn_below_cutoff (g : R -> R) (x : R)
    (Hg : forall z, fn (Fin z) = Fin (g z)) (Hx : x < - ln DBL_MAX) :
  derivable_pt_lim g x 0 /\
  deriv (fn (Fin x)) = Fin (DBL_MAX / (1 + DBL_MAX) ^ 2) /\
  0 < DBL_MAX / (1 + DBL_MAX) ^ 2.
Proof.
  pose proof DBL_MAX_pos as HM.
  split; [| split].
  - apply derivable_pt_lim_locally_ext
      with (f := fct_cte (1 / (1 + DBL_MAX))) (a := x - 1) (b := - ln DBL_MAX);
      [lra | | apply derivable_pt_lim_const].
    intros z Hz. specialize (Hg z). rewrite fn_saturated in Hg by lra.
    now injection Hg.
  - rewrite fn_saturated by lra.
    rewrite deriv_Fin_unit by (pose proof (unit_fraction _ HM); lra).
    f_equal. field. lra.
  - apply Rdiv_lt_0_compat; [lra | apply pow_lt; lra].
Qed.

(** X8 with the value of fn itself for g, at x = -2048. *)
Lemma deriv_of_fn_below_cutoff_witness :
  exists g, (forall z, fn (Fin z) = Fin (g z)) /\ -2048 < - ln DBL_MAX /\
            derivable_pt_lim g (-2048) 0.
Proof.
  exists (fun z => 1 / (1 + Rmin (exp (- z)) DBL_MAX)).
  assert (Hx : -2048 < - ln DBL_MAX) by lra_thresholds.
  split; [exact fn_Fin |]. split; [exact Hx |].
  exact (proj1 (deriv_of_fn_below_cutoff _ (-2048) fn_Fin Hx)).
Defined.

(** X9.  For every finite x within the cutoffs, |x| <= ln(DBL_MAX), and
    to within the tolerance 1e-9, deriv(fn(x)) is the product
    fn(x) * fn(-x) and has the same value at x and at -x; it lies between
    0 and 0.25. *)
Theorem deriv_fn_product (x : R) (Hx : - ln DBL_MAX <= x <= ln DBL_MAX) :
  exists d p d', deriv (fn (Fin x)) = Fin d /\
                 (fn (Fin x) * fn (- Fin x))%D = Fin p /\
                 deriv (fn (- Fin x)) = Fin d' /\
                 Rabs (d - p) <= 1e-9 /\
                 Rabs (d - d') <= 1e-9 /\
                 0 <= d <= 0.25.
Proof.
  cbn [dneg]. rewrite !fn_unsaturated by lra. rewrite logistic_opp.
  pose proof (logistic_pos x) as [H0 H1].
  set (l := logistic x) in *.
  exists (l * (1 - l)), (l * (1 - l)), (l * (1 - l)).
  assert (Hq : 0 <= l * (1 - l) <= 1 / 4).
  { split; [apply Rmult_le_pos; lra |].
    pose proof (pow2_ge_0 (l - 1 / 2)). nra. }
  assert (Hzero : Rabs (l * (1 - l) - l * (1 - l)) <= 1e-9).
  { replace (l * (1 - l) - l * (1 - l)) with 0 by lra. rewrite Rabs_R0. lra. }
  rewrite !deriv_Fin_unit by lra.
  rewrite dmul_Fin
    by (pose proof one_lt_threshold; rewrite Rabs_right; lra).
  split; [reflexivity |]. split; [reflexivity |].
  split; [f_equal; ring |]. split; [exact Hzero |]. split; [exact Hzero |].
  lra.
Qed.

(** X9 at x = 1. *)
Lemma deriv_fn_product_witness :
  - ln DBL_MAX <= 1 <= ln DBL_MAX /\
  exists d d', deriv (fn (Fin 1)) = Fin d /\
               deriv (fn (- Fin 1)) = Fin d' /\ Rabs (d - d') <= 1e-9.
Proof.
  assert (H : - ln DBL_MAX <= 1 <= ln DBL_MAX) by lra_thresholds.
  split; [exact H |].
  destruct (deriv_fn_product 1 H) as [d [p [d' [H1 [_ [H2 [_ [H3 _]]]]]]]].
  exists d, d'. repeat split; assumption.
Defined.

(** *** Order *)

(** X10.  The forward value is on the side of 0.5 that the sign of the
    input says: fn(x) >= 0.5 for x >= 0 and fn(x) <= 0.5 for x <= 0. *)
Theorem fn_threshold (x : R) :
  exists r, fn (Fin x) = Fin r /\
            (0 <= x -> 0.5 <= r) /\
            (x <= 0 -> r <= 0.5).
Proof.
  eexists. split; [apply fn_Fin |].
  pose proof (capped_exp_pos (- x)) as Hpos. thresholds.
  split; intro Hx.
  - assert (Hm : Rmin (exp (- x)) DBL_MAX <= 1).
    { apply Rle_trans with (1 := Rmin_l _ _).
      rewrite <- exp_0. destruct Hx as [Hx | <-].
      - left. apply exp_increasing. lra.
      - right. f_equal. lra. }
    pose proof (unit_fraction_antitone _ 1 (conj Hpos Hm)). lra.
  - assert (Hm : 1 <= Rmin (exp (- x)) DBL_MAX).
    { apply Rmin_glb; [| lra].
      rewrite <- exp_0. destruct Hx as [Hx | ->].
      - left. apply exp_increasing. lra.
      - right. f_equal. lra. }
    pose proof (unit_fraction_antitone 1 _ (conj Rlt_0_1 Hm)). lra.
Qed.

(** X10 at x = 1. *)
Lemma fn_threshold_witness :
  0 <= 1 /\ exists r, fn (Fin 1) = Fin r /\ 0.5 <= r.
Proof.
  assert (H : 0 <= 1) by lra.
  split; [exact H |].
  destruct (fn_threshold 1) as [r [Hr [Hge _]]].
  exists r. split; [exact Hr | exact (Hge H)].
Defined.

Lemma odds_increasing (y1 y2 : R) :
  0 < y1 -> y1 < y2 -> y2 < 1 -> y1 / (1 - y1) < y2 / (1 - y2).
Proof.
  intros H1 H12 H2.
  apply Rmult_lt_reg_r with ((1 - y1) * (1 - y2));
    [apply Rmult_lt_0_compat; lra |].
  replace (y1 / (1 - y1) * ((1 - y1) * (1 - y2))) with (y1 * (1 - y2))
    by (field; lra).
  replace (y2 / (1 - y2) * ((1 - y1) * (1 - y2))) with (y2 * (1 - y1))
    by (field; lra).
  lra.
Qed.

(** X11.  On (0, 1) the inverse is monotone: 0 < y1 <= y2 < 1 gives
    inv(y1) <= inv(y2), strictly when y1 < y2; and it is non-negative from
    0.5 up and non-positive from 0.5 down. *)
Theorem inv_monotone (y1 y2 : R)
    (H1 : 0 < y1) (H12 : y1 <= y2) (H2 : y2 < 1) :
  exists a b, inv (Fin y1) = Fin a /\ inv (Fin y2) = Fin b /\
              a <= b /\ (y1 < y2 -> a < b) /\
              (0.5 <= y1 -> 0 <= a) /\ (y2 <= 0.5 -> b <= 0).
Proof.
  assert (Hstrict : forall u v, 0 < u -> u < v -> v < 1 -> logit u < logit v).
  { intros u v Hu Huv Hv. unfold logit. apply ln_increasing.
    - apply odds_pos. lra.
    - now apply odds_increasing. }
  assert (Hhalf : logit 0.5 = 0).
  { unfold logit. replace (0.5 / (1 - 0.5)) with 1 by lra. apply ln_1. }
  exists (logit y1), (logit y2).
  rewrite !inv_Fin_open by lra.
  split; [reflexivity |]. split; [reflexivity |].
  split; [| split; [| split]].
  - destruct H12 as [Hlt | ->]; [left; now apply Hstrict | right; reflexivity].
  - intro Hlt. now apply Hstrict.
  - intros [Hlt | <-]; [| lra].
    rewrite <- Hhalf. left. apply Hstrict; lra.
  - intros [Hlt | ->]; [| lra].
    rewrite <- Hhalf. left. apply Hstrict; lra.
Qed.

(** X11 at y1 = 0.25 and y2 = 0.75. *)
Lemma inv_monotone_witness :
  0 < 0.25 /\ 0.25 <= 0.75 /\ 0.75 < 1 /\
  exists a b, inv (Fin 0.25) = Fin a /\ inv (Fin 0.75) = Fin b /\ a <= b.
Proof.
  assert (H1 : 0 < 0.25) by lra.
  assert (H12 : 0.25 <= 0.75) by lra.
  assert (H2 : 0.75 < 1) by lra.
  split; [exact H1 |]. split; [exact H12 |]. split; [exact H2 |].
  destruct (inv_monotone 0.25 0.75 H1 H12 H2) as [a [b [Ha [Hb [Hle _]]]]].
  exists a, b. repeat split; assumption.
Defined.

(** X12.  Away from the boundary the inverse is odd about 0.5 to within
    the tolerance 1e-9: for 0.001 <= y <= 0.999, inv(1 - y) = -inv(y). *)
Theorem inv_antisymmetric (y : R) (Hy : 0.001 <= y <= 0.999) :
  exists a b, inv (Fin 1 - Fin y)%D = Fin a /\
              inv (Fin y) = Fin b /\
              Rabs (a + b) <= 1e-9.
Proof.
  exists (logit (1 - y)), (logit y).
  cbn [dsub dneg dadd]. fold (1 - y).
  rewrite !inv_Fin_open by lra. split; [reflexivity |]. split; [reflexivity |].
  unfold logit.
  replace ((1 - y) / (1 - (1 - y))) with (/ (y / (1 - y))) by (field; lra).
  rewrite ln_Rinv by (apply odds_pos; lra).
  replace (- ln (y / (1 - y)) + ln (y / (1 - y))) with 0 by lra.
  rewrite Rabs_R0. lra.
Qed.

(** X12 at y = 0.25. *)
Lemma inv_antisymmetric_witness :
  0.001 <= 0.25 <= 0.999 /\
  exists a b, inv (Fin 1 - Fin 0.25)%D = Fin a /\
              inv (Fin 0.25) = Fin b /\ Rabs (a + b) <= 1e-9.
Proof.
  assert (H : 0.001 <= 0.25 <= 0.999) by lra.
  split; [exact H | exact (inv_antisymmetric 0.25 H)].
Defined.

(** X13.  The value inv returns at y = 0 is not a lower bound of inv: for
    a positive y whose odds y / (1 - y) are below DBL_MIN, inv(y) is
    smaller than inv(0). *)
Theorem inv_below_zero_sentinel (y : R)
    (Hy : 0 < y < 1) (Hodds : y / (1 - y) < DBL_MIN) :
  exists a b, inv (Fin y) = Fin a /\ inv (Fin 0) = Fin b /\ a < b.
Proof.
  exists (logit y), (ln DBL_MIN).
  split; [now apply inv_Fin_open |].
  split; [apply inv_Fin_nonpos; lra |].
  unfold logit. apply ln_increasing; [now apply odds_pos | exact Hodds].
Qed.

(** X13 at y = DBL_MIN / 2. *)
Lemma inv_below_zero_sentinel_witness :
  0 < DBL_MIN / 2 < 1 /\
  exists a b, inv (Fin (DBL_MIN / 2)) = Fin a /\ inv (Fin 0) = Fin b /\ a < b.
Proof.
  pose proof DBL_MIN_pos as Hm. pose proof DBL_MIN_lt_1 as Hm1.
  assert (Hy : 0 < DBL_MIN / 2 < 1) by lra.
  assert (Hodds : DBL_MIN / 2 / (1 - DBL_MIN / 2) < DBL_MIN).
  { apply Rmult_lt_reg_r with (1 - DBL_MIN / 2); [lra |].
    replace (DBL_MIN / 2 / (1 - DBL_MIN / 2) * (1 - DBL_MIN / 2))
      with (DBL_MIN / 2) by (field; lra).
    nra. }
  split; [exact Hy | exact (inv_below_zero_sentinel _ Hy Hodds)].
Defined.

(** X14.  To within the tolerance 1e-9, the forward evaluation changes by
    at most a quarter of the change of its input:
    |fn(x2) - fn(x1)| <= |x2 - x1| / 4 + 1e-9 for all finite x1 and x2. *)
Theorem fn_lipschitz (x1 x2 : R) :
  exists r1 r2, fn (Fin x1) = Fin r1 /\ fn (Fin x2) = Fin r2 /\
                Rabs (r2 - r1) <= Rabs (x2 - x1) / 4 + 1e-9.
Proof.
  assert (Hlog : forall a b, a <= b ->
            0 <= logistic b - logistic a <= (b - a) / 4).
  { intros a b [Hab | ->]; [| lra].
    destruct (MVT_cor2 logistic (fun c => logistic c * (1 - logistic c)) a b Hab)
      as [c [Hc _]]; [intros; apply logistic_derivative |].
    pose proof (logistic_pos c) as [H0 H1].
    assert (Hd : 0 < logistic c * (1 - logistic c) <= 1 / 4).
    { split; [apply Rmult_lt_0_compat; lra |].
      pose proof (pow2_ge_0 (logistic c - 1 / 2)). nra. }
    rewrite Hc. nra. }
  assert (Hval : forall z, 1 / (1 + Rmin (exp (- z)) DBL_MAX)
                           = Rmax (logistic z) (1 / (1 + DBL_MAX))).
  { intro z. pose proof DBL_MAX_pos as HM. pose proof (exp_pos (- z)) as He.
    unfold logistic.
    destruct (Rle_dec (exp (- z)) DBL_MAX) as [Hle | Hgt].
    - rewrite Rmin_left, Rmax_left; [reflexivity | | exact Hle].
      now apply unit_fraction_antitone.
    - apply Rnot_le_lt in Hgt.
      rewrite Rmin_right, Rmax_right; [reflexivity | | lra].
      apply unit_fraction_antitone. lra. }
  assert (Hmono : forall a b, a <= b ->
            0 <= Rmax (logistic b) (1 / (1 + DBL_MAX))
                 - Rmax (logistic a) (1 / (1 + DBL_MAX)) <= (b - a) / 4).
  { intros a b Hab. pose proof (Hlog a b Hab) as [H0 H1].
    set (c := 1 / (1 + DBL_MAX)).
    unfold Rmax. destruct (Rle_dec (logistic b) c), (Rle_dec (logistic a) c); lra. }
  do 2 eexists. split; [apply fn_Fin |]. split; [apply fn_Fin |].
  rewrite !Hval.
  destruct (Rle_dec x1 x2) as [Hle | Hgt].
  - pose proof (Hmono x1 x2 Hle). rewrite !Rabs_right; lra.
  - pose proof (Hmono x2 x1 ltac:(lra)).
    rewrite (Rabs_left1 (x2 - x1)) by lra.
    rewrite Rabs_left1; lra.
Qed.

(** *** Containers *)

Lemma fn_vec_eop (x out : arma.Mat) : fn_vec x out = arma.eop fn x.
Proof.
  unfold fn_vec, arma.scalar_div_pre, arma.scalar_plus, arma.trunc_exp_mat,
    arma.neg. now rewrite !eop_compose.
Qed.

Lemma inv_vec_eop (y out : arma.Mat) : inv_vec y out = Some (arma.eop inv y).
Proof.
  unfold inv_vec, arma.div, arma.scalar_minus_pre, arma.trunc_log_mat.
  rewrite eglue_eop_self. cbn [option_map]. now rewrite eop_compose.
Qed.

Lemma deriv_vec_eop (y out : arma.Mat) :
  deriv_vec y out = Some (arma.eop deriv y).
Proof.
  unfold deriv_vec, arma.schur, arma.scalar_minus_pre.
  now rewrite eglue_eop_self.
Qed.

Lemma eop_fixes (f : double -> double) (X : arma.Mat) :
  Forall (fun e => f e = e) (arma.mem X) -> arma.eop f X = X.
Proof.
  intro H. destruct X as [r c l]. unfold arma.eop. cbn in *. f_equal.
  induction H as [| e l He _ IH]; cbn; [reflexivity | now rewrite He, IH].
Qed.

(** X15.  On containers, inverse after forward succeeds and gives back a
    container of the same dimensions whose every element is within 1e-9 of
    the input element, when every input element is finite and in
    [-ln(DBL_MAX), 10]. *)
Theorem inv_vec_fn_vec (x out1 out2 : arma.Mat)
    (Hx : Forall (fun e => exists r, e = Fin r /\ - ln DBL_MAX <= r <= 10)
            (arma.mem x)) :
  exists res, inv_vec (fn_vec x out1) out2 = Some res /\
              arma.n_rows res = arma.n_rows x /\
              arma.n_cols res = arma.n_cols x /\
              Forall2 (fun e e' => exists r r', e = Fin r /\ e' = Fin r' /\
                                                Rabs (r' - r) <= 1e-9)
                (arma.mem x) (arma.mem res).
Proof.
  exists (arma.eop (fun e => inv (fn e)) x).
  rewrite fn_vec_eop, inv_vec_eop, eop_compose.
  split; [reflexivity |]. split; [reflexivity |]. split; [reflexivity |].
  unfold arma.eop. cbn [arma.mem].
  induction Hx as [| e l [r [-> Hr]] _ IH]; cbn [map]; constructor.
  - exists r, r. split; [reflexivity |]. split.
    + rewrite inv_fn_Fin, Rmax_left by lra. reflexivity.
    + replace (r - r) with 0 by lra. rewrite Rabs_R0. lra.
  - exact IH.
Qed.

(** X15 on the 1 x 2 container holding 0 and 1. *)
Lemma inv_vec_fn_vec_witness :
  let x := arma.mkMat 1 2 [Fin 0; Fin 1] in
  Forall (fun e => exists r, e = Fin r /\ - ln DBL_MAX <= r <= 10)
    (arma.mem x) /\
  exists res, inv_vec (fn_vec x x) x = Some res /\
              arma.n_rows res = arma.n_rows x.
Proof.
  intro x.
  assert (H : Forall (fun e => exists r, e = Fin r /\ - ln DBL_MAX <= r <= 10)
                (arma.mem x)).
  { repeat constructor; eexists; (split; [reflexivity | lra_thresholds]). }
  split; [exact H |].
  destruct (inv_vec_fn_vec x x x H) as [res [Hres [Hrows _]]].
  exists res. split; [exact Hres | exact Hrows].
Defined.

(** X16.  On containers, forward after inverse gives the input container
    back when every element is finite and in [1 / (1 + DBL_MAX), 1);
    neither call fails. *)
Theorem fn_vec_inv_vec (y out1 out2 : arma.Mat)
    (Hy : Forall (fun e => exists r, e = Fin r /\ 1 / (1 + DBL_MAX) <= r < 1)
            (arma.mem y)) :
  exists x, inv_vec y out1 = Some x /\ fn_vec x out2 = y.
Proof.
  exists (arma.eop inv y). split; [apply inv_vec_eop |].
  rewrite fn_vec_eop, eop_compose.
  apply eop_fixes. apply Forall_impl with (2 := Hy).
  intros e [r [-> Hr]]. now apply fn_inv_Fin.
Qed.

(** X16 on the 2 x 1 container holding 0.25 and 0.5. *)
Lemma fn_vec_inv_vec_witness :
  let y := arma.mkMat 2 1 [Fin 0.25; Fin 0.5] in
  Forall (fun e => exists r, e = Fin r /\ 1 / (1 + DBL_MAX) <= r < 1)
    (arma.mem y) /\
  exists x, inv_vec y y = Some x /\ fn_vec x y = y.
Proof.
  intro y.
  assert (H : Forall (fun e => exists r, e = Fin r /\ 1 / (1 + DBL_MAX) <= r < 1)
                (arma.mem y)).
  { thresholds. pose proof (unit_fraction_small DBL_MAX (10 ^ 9) ltac:(lra)).
    repeat constructor; eexists; (split; [reflexivity | lra]). }
  split; [exact H | exact (fn_vec_inv_vec y y y H)].
Defined.

(** X17.  The derivative container of a forward container holds no value
    above 0.25 and no NaN, provided the input holds no NaN: for every
    container x without NaN, deriv(fn(x)) succeeds, has the shape of x, and
    each element is a finite number between 0 and 0.25. *)
Theorem deriv_vec_fn_vec (x out1 out2 : arma.Mat)
    (Hx : Forall (fun e => e <> NaN) (arma.mem x)) :
  exists d, deriv_vec (fn_vec x out1) out2 = Some d /\
            arma.n_rows d = arma.n_rows x /\
            arma.n_cols d = arma.n_cols x /\
            arma.n_elem d = arma.n_elem x /\
            Forall (fun e => exists r, e = Fin r /\ 0 <= r <= 0.25)
              (arma.mem d).
Proof.
  exists (arma.eop (fun e => deriv (fn e)) x).
  rewrite fn_vec_eop, deriv_vec_eop, eop_compose.
  split; [reflexivity |].
  unfold arma.n_elem, arma.eop. cbn [arma.n_rows arma.n_cols arma.mem].
  split; [reflexivity |]. split; [reflexivity |].
  split; [apply length_map |].
  apply Forall_map. apply Forall_impl with (2 := Hx).
  intros e He.
  assert (Hfn : exists r, fn e = Fin r /\ 0 < r <= 1).
  { pose proof DBL_MAX_pos as HM. pose proof (unit_fraction _ HM) as [Hu _].
    destruct e as [z | | |].
    - eexists. split; [apply fn_Fin |].
      pose proof (unit_fraction _ (capped_exp_pos (- z))). lra.
    - exists 1. split; [apply fn_PInf | lra].
    - eexists. split; [apply fn_NInf |].
      pose proof (unit_fraction _ HM). lra.
    - contradiction. }
  destruct Hfn as [r [Hr [H0 H1]]].
  cbv beta. rewrite Hr.
  exists (r * (1 - r)). split; [apply deriv_Fin_unit; lra |].
  split; [apply Rmult_le_pos; lra |].
  replace 0.25 with (1 / 4) by lra.
  pose proof (pow2_ge_0 (r - 1 / 2)). nra.
Qed.

(** X17 on the 1 x 3 container holding -infinity, 0 and +infinity. *)
Lemma deriv_vec_fn_vec_witness :
  let x := arma.mkMat 1 3 [NInf; Fin 0; PInf] in
  Forall (fun e => e <> NaN) (arma.mem x) /\
  exists d, deriv_vec (fn_vec x x) x = Some d /\
            arma.n_elem d = arma.n_elem x.
Proof.
  intro x.
  assert (H : Forall (fun e => e <> NaN) (arma.mem x))
    by (repeat constructor; discriminate).
  split; [exact H |].
  destruct (deriv_vec_fn_vec x x x H) as [d [Hd [_ [_ [Hn _]]]]].
  exists d. split; [exact Hd | exact Hn].
Defined.
